(** * Monte Carlo pricing of a European option: the model of MonteCarlo.py

    The development embeds [Option.__init__], [Option.calc_black_scholes_merton],
    [simulate] and [calc_expected_price] and settles the properties stated
    about them.

    Numbers.  A Python [float] argument (the fields of an [Option], [dt]) is a
    real number: rounding, overflow and underflow of binary64 are abstracted
    away, so arithmetic on finite values is exact.  A value computed by numpy
    is a [float64]: a real number, [+inf], [-inf] or [nan].  numpy does not
    raise on a division by zero, a logarithm of a non-positive number or a
    mean of nothing (it warns and yields [inf] or [nan]), whereas the Python
    operator [/] on two Python floats raises [ZeroDivisionError].  Zero is
    unsigned and behaves as [+0.0].

    Randomness.  The process-wide generator behind [np.random.normal] is a
    [RandomState]: the sequence of standard normal variates it will deliver,
    threaded through [simulate] by a state-and-exception monad. *)

From Stdlib Require Import Reals Lra ZArith Lia String Ascii Bool List Permutation.
From Equations Require Import Equations.
Import ListNotations.

Local Open Scope R_scope.

(** ** Exceptions and results *)

Inductive exn : Type :=
| ZeroDivisionError
| UnboundLocalError
| ValueError.

Inductive result (A : Type) : Type :=
| Ok (a : A)
| Raise (err : exn).

Arguments Ok {A} a.
Arguments Raise {A} err.

Definition bind {A B : Type} (m : result A) (k : A -> result B) : result B :=
  match m with
  | Ok a => k a
  | Raise err => Raise err
  end.

Declare Scope py_scope.
Delimit Scope py_scope with py.
Notation "'let!' x ':=' m 'in' k" := (bind m (fun x => k))
  (at level 10, x name, m at level 100, k at level 200) : py_scope.
Local Open Scope py_scope.

(** ** Python floats *)

(** [x / y] on Python floats. *)
Definition py_truediv (x y : R) : result R :=
  if Req_dec_T y 0 then Raise ZeroDivisionError else Ok (x / y).

(** ** numpy scalars *)

Inductive float64 : Type :=
| Fin (x : R)
| PInf
| NInf
| NaN.


(** The infinity whose sign is the sign of [x]; [nan] at zero
    ([0 * inf], [0 / 0]). *)
Definition inf_of_sign (x : R) : float64 :=
  match total_order_T x 0 with
  | inleft (left _) => NInf
  | inleft (right _) => NaN
  | inright _ => PInf
  end.

Definition np_negative (a : float64) : float64 :=
  match a with
  | Fin x => Fin (- x)
  | PInf => NInf
  | NInf => PInf
  | NaN => NaN
  end.

Definition np_add (a b : float64) : float64 :=
  match a, b with
  | NaN, _ | _, NaN => NaN
  | Fin x, Fin y => Fin (x + y)
  | PInf, NInf | NInf, PInf => NaN
  | PInf, _ | _, PInf => PInf
  | NInf, _ | _, NInf => NInf
  end.

Definition np_subtract (a b : float64) : float64 :=
  np_add a (np_negative b).

Definition np_multiply (a b : float64) : float64 :=
  match a, b with
  | NaN, _ | _, NaN => NaN
  | Fin x, Fin y => Fin (x * y)
  | Fin x, PInf | PInf, Fin x => inf_of_sign x
  | Fin x, NInf | NInf, Fin x => inf_of_sign (- x)
  | PInf, PInf | NInf, NInf => PInf
  | PInf, NInf | NInf, PInf => NInf
  end.

(** numpy's true division: a zero divisor gives [inf] or [nan], never an
    exception. *)
Definition np_divide (a b : float64) : float64 :=
  match a, b with
  | NaN, _ | _, NaN => NaN
  | Fin x, Fin y => if Req_dec_T y 0 then inf_of_sign x else Fin (x / y)
  | Fin _, PInf | Fin _, NInf => Fin 0
  | PInf, Fin y => if Rlt_dec y 0 then NInf else PInf
  | NInf, Fin y => if Rlt_dec y 0 then PInf else NInf
  | _, _ => NaN
  end.

Definition np_log (x : R) : float64 :=
  match total_order_T x 0 with
  | inleft (left _) => NaN
  | inleft (right _) => NInf
  | inright _ => Fin (ln x)
  end.

Definition np_sqrt (x : R) : float64 :=
  if Rlt_dec x 0 then NaN else Fin (sqrt x).

(** [np.maximum(a, 0)]. *)
Definition np_maximum0 (a : float64) : float64 :=
  match a with
  | Fin x => Fin (Rmax x 0)
  | PInf => PInf
  | NInf => Fin 0
  | NaN => NaN
  end.

(** [const: Euler's number in float64] *)
Definition e : R := exp 1.

(** [np.float_power(b, x)] for a positive base and a finite exponent. *)
Definition np_float_power (b x : R) : float64 := Fin (Rpower b x).

(** ** The standard normal distribution function *)

Definition gauss_density (t : R) : R := exp (- (t * t) / 2) / sqrt (2 * PI).

Lemma gauss_density_continuous : forall t : R, continuity_pt gauss_density t.
Proof.
  intro t. unfold gauss_density. reg.
Qed.

Definition gauss_integrable (x : R) : Riemann_integrable gauss_density 0 x :=
  match Rle_dec 0 x with
  | left h =>
      continuity_implies_RiemannInt h
        (fun t _ => gauss_density_continuous t)
  | right h =>
      RiemannInt_P1
        (continuity_implies_RiemannInt
           (Rlt_le _ _ (Rnot_le_lt _ _ h))
           (fun t _ => gauss_density_continuous t))
  end.

(** [Phi x] is the integral of the density over [(-inf, x]]: one half up to
    zero, the rest from zero to [x]. *)
Definition Phi (x : R) : R := 1 / 2 + RiemannInt (gauss_integrable x).

(** [scipy.stats.norm.cdf] *)
Definition norm_cdf (a : float64) : float64 :=
  match a with
  | Fin x => Fin (Phi x)
  | PInf => Fin 1
  | NInf => Fin 0
  | NaN => NaN
  end.

(** [np.average] of an array, all of its elements taken together: their
    sum over their number, by numpy's division. *)
Definition np_sum (l : list float64) : float64 :=
  fold_left np_add l (Fin 0).

Definition np_average (a : list (list float64)) : float64 :=
  np_divide (np_sum (concat a)) (Fin (INR (length (concat a)))).

(** ** Broadcasting *)

(** A numpy operand of [simulate]: a scalar or a one-dimensional array. *)
Inductive ndval : Type :=
| Scalar (a : float64)
| Array (l : list float64).

Fixpoint zip_add (l1 l2 : list float64) : list float64 :=
  match l1, l2 with
  | a :: l1', b :: l2' => np_add a b :: zip_add l1' l2'
  | _, _ => []
  end.

(** [s + c] for a scalar [c]. *)
Definition add_scalar (s : ndval) (c : float64) : ndval :=
  match s with
  | Scalar a => Scalar (np_add a c)
  | Array l => Array (map (fun a => np_add a c) l)
  end.

(** [s + v] for a one-dimensional array [v]: shapes [(n,)] and [(m,)]
    broadcast when they are equal or one of them is [(1,)]. *)
Definition add_array (s : ndval) (v : list float64) : result (list float64) :=
  match s with
  | Scalar a => Ok (map (np_add a) v)
  | Array l =>
      if (length l =? length v)%nat then Ok (zip_add l v)
      else match l, v with
           | [a], _ => Ok (map (np_add a) v)
           | _, [b] => Ok (map (fun a => np_add a b) l)
           | _, _ => Raise ValueError
           end
  end.

(** ** Strings *)

Definition lower_char (c : ascii) : ascii :=
  let n := nat_of_ascii c in
  if ((65 <=? n) && (n <=? 90))%nat then ascii_of_nat (n + 32) else c.

(** [str.lower] on a string of ASCII characters. *)
Fixpoint lower (s : string) : string :=
  match s with
  | EmptyString => EmptyString
  | String c s' => String (lower_char c) (lower s')
  end.

(** ** The pseudorandom generator *)

(** The generator: the standard normal variates it delivers over its life
    and how many of them it has delivered. *)
Record RandomState : Type := mkRandomState {
  variates : nat -> R;
  position : nat
}.

Definition M (A : Type) : Type := RandomState -> result (A * RandomState).

Definition ret {A : Type} (a : A) : M A := fun g => Ok (a, g).

Definition mbind {A B : Type} (m : M A) (k : A -> M B) : M B :=
  fun g =>
    match m g with
    | Ok (a, g') => k a g'
    | Raise err => Raise err
    end.

Definition lift {A : Type} (m : result A) : M A :=
  fun g =>
    match m with
    | Ok a => Ok (a, g)
    | Raise err => Raise err
    end.

Notation "x <- m ;; k" := (mbind m (fun x => k))
  (at level 61, m at next level, right associativity) : py_scope.

Definition negative_scale (scale : float64) : bool :=
  match scale with
  | Fin s => if Rlt_dec s 0 then true else false
  | NInf => true
  | _ => false
  end.

(** [np.random.normal(loc, scale, size)]: [size] variates, each
    [loc + scale * z] for the next standard normal [z] of the generator. *)
Definition np_random_normal (loc scale : float64) (size : Z)
  : M (list float64) :=
  fun g =>
    if negative_scale scale then Raise ValueError
    else if (size <? 0)%Z then Raise ValueError
    else
      let n := Z.to_nat size in
      Ok (map (fun i =>
                 np_add loc
                   (np_multiply scale (Fin (variates g (position g + i)))))
            (seq 0 n),
          mkRandomState (variates g) (position g + n)).

(** ** class Option *)

Record Option : Type := mkOption {
  K : R;
  T : R;
  S_0 : R;
  r : R;
  sigma : R;
  putOrcall : string
}.

(** [Option.__init__] (MonteCarlo.py, lines 8-14): the arguments are stored
    as they are, the kind in lower case; nothing is checked. *)
Definition Option_init (K T S_0 r sigma : R) (putOrCall : string)
  : result Option :=
  Ok (mkOption K T S_0 r sigma (lower putOrCall)).

(** Reading a local variable of a function body: unbound until assigned. *)
Definition read_local (x : option R) : result R :=
  match x with
  | Some v => Ok v
  | None => Raise UnboundLocalError
  end.

(** [Option.calc_black_scholes_merton] (lines 18-26).  [discount_factor] is
    a local variable that only the call branch assigns; the other branch
    reads it unassigned. *)
Definition calc_black_scholes_merton (self : Option) : result float64 :=
  let discount_factor : option R := None in
  let! q := py_truediv (S_0 self) (K self) in
  let d_1 :=
    np_divide
      (np_add (np_log q) (Fin ((r self + (sigma self) ^ 2 / 2) * T self)))
      (np_multiply (Fin (sigma self)) (np_sqrt (T self))) in
  let d_2 :=
    np_subtract d_1 (np_multiply (Fin (sigma self)) (np_sqrt (T self))) in
  if (putOrcall self =? "call")%string then
    let discount_factor := Some (- r self * T self) in
    let! df := read_local discount_factor in
    Ok (np_subtract
          (np_multiply (Fin (S_0 self)) (norm_cdf d_1))
          (np_multiply
             (np_multiply (Fin (K self)) (np_float_power e df)) d_2))
  else
    let! df := read_local discount_factor in
    Ok (np_subtract
          (np_multiply
             (np_multiply (Fin (K self)) (np_float_power e df))
             (norm_cdf (np_negative d_2)))
          (np_multiply (Fin (S_0 self)) (norm_cdf (np_negative d_1)))).

(** ** Monte Carlo section *)

(** The body of the [while] loop of [simulate]: from the rows appended so far
    and the running level [S_t] to the same after one more step. *)
Definition simulate_step (num_simulations : Z) (option : Option) (dt : R)
    (st : list (list float64) * ndval) : M (list (list float64) * ndval) :=
  let '(simulated_paths, S_t) := st in
  delta_z <- np_random_normal (Fin 0) (np_sqrt dt) num_simulations ;;
  d_S <- lift (add_array
                 (add_scalar S_t (Fin (r option * dt)))
                 (map (np_multiply (Fin (sigma option * S_0 option)))
                    delta_z)) ;;
  ret (simulated_paths ++ [d_S], Array d_S).

(** The loop [while n <= num_simulations] (lines 37-42): it ends because
    [num_simulations + 1 - n] decreases; an exception of the body ends it. *)
Equations? simulate_loop (num_simulations : Z) (option : Option) (dt : R)
    (st : list (list float64) * ndval) (n : Z) (g : RandomState)
  : result ((list (list float64) * ndval) * RandomState)
  by wf (Z.to_nat (num_simulations + 1 - n)) lt :=
  simulate_loop num_simulations option dt st n g
    with Z_le_dec n num_simulations => {
    | left _ with simulate_step num_simulations option dt st g => {
        | Ok (st', g') =>
            simulate_loop num_simulations option dt st' (n + 1) g'
        | Raise err => Raise err }
    | right _ => Ok (st, g) }.
Proof. lia. Qed.

(** [simulate] (lines 33-43): the loop starts at [n = 1] with no row and
    the scalar [S_0] as running level, and the rows come back as an
    array. *)
Definition simulate (num_simulations : Z) (option : Option) (dt : R)
  : M (list (list float64)) :=
  fun g =>
    match simulate_loop num_simulations option dt
            ([], Scalar (Fin (S_0 option))) 1 g with
    | Ok ((simulated_paths, _), g') => Ok (simulated_paths, g')
    | Raise err => Raise err
    end.

(** [calc_expected_price] (lines 45-51) *)
Definition calc_expected_price (simulated_paths : list (list float64))
    (option : Option) : result float64 :=
  let payoffs :=
    if (putOrcall option =? "call")%string
    then map (map (fun v => np_maximum0 (np_subtract v (Fin (K option)))))
           simulated_paths
    else map (map (fun v => np_maximum0 (np_subtract (Fin (K option)) v)))
           simulated_paths in
  let discount_factor := -1 * r option * T option in
  let expected_payoff :=
    np_multiply (np_average payoffs) (np_float_power e discount_factor) in
  Ok expected_payoff.

(** ** The formulas the properties are stated with *)



(** The payoff of one simulated value. *)
Definition payoff (o : Option) (v : R) : R :=
  if (putOrcall o =? "call")%string
  then Rmax (v - K o) 0
  else Rmax (K o - v) 0.

Definition Rsum (l : list R) : R := fold_right Rplus 0 l.

(** The arithmetic mean. *)
Definition mean (l : list R) : R := Rsum l / INR (length l).

(** The shock vector of step [k] (counted from 0): the next
    [N] variates of the generator, each scaled by [sqrt dt]. *)
Definition shocks (g : RandomState) (N : nat) (dt : R) (k : nat) : list R :=
  map (fun i => sqrt dt * variates g (position g + k * N + i)%nat) (seq 0 N).

(** One step of the walk, elementwise on a vector of levels. *)
Definition advance (o : Option) (dt : R) (prev z : list R) : list R :=
  map (fun sz => fst sz + r o * dt + sigma o * S_0 o * snd sz)
    (combine prev z).

(** The generator after [m] more variates have been drawn. *)
Definition skip (g : RandomState) (m : nat) : RandomState :=
  mkRandomState (variates g) (position g + m).

(** The rows of [k] successive steps from the levels [prev], each step
    drawing its own shock vector of [N] variates. *)
Fixpoint walk (o : Option) (dt : R) (N k : nat) (prev : list R)
    (g : RandomState) : list (list R) :=
  match k with
  | O => []
  | S k' =>
      let next := advance o dt prev (shocks g N dt 0) in
      next :: walk o dt N k' next (skip g N)
  end.

(** The running level [S_t] stands for the vector [prev] of [N] levels:
    as a scalar broadcast to every position, or as the array itself. *)
Definition represents (N : nat) (S_t : ndval) (prev : list R) : Prop :=
  (exists s : R, S_t = Scalar (Fin s) /\ prev = repeat s N)
  \/ (S_t = Array (map Fin prev) /\ length prev = N).

(** The sum of the first [n] variates of column [i]: one variate in every
    block of [N], from the position of the generator on. *)
Fixpoint column_sum (g : RandomState) (N i n : nat) : R :=
  match n with
  | O => 0
  | S n' => column_sum g N i n' + variates g (position g + n' * N + i)%nat
  end.

(** * Properties *)

(** ** The numeric layer on its domain *)

Lemma py_truediv_nonzero (x y : R) : y <> 0 -> py_truediv x y = Ok (x / y).
Proof.
  intro Hy. unfold py_truediv. destruct (Req_dec_T y 0); [contradiction | reflexivity].
Qed.

Lemma py_truediv_zero (x : R) : py_truediv x 0 = Raise ZeroDivisionError.
Proof.
  unfold py_truediv. destruct (Req_dec_T 0 0) as [_ | Hn]; [reflexivity | now elim Hn].
Qed.


Lemma np_sqrt_nonneg (x : R) : 0 <= x -> np_sqrt x = Fin (sqrt x).
Proof.
  intro Hx. unfold np_sqrt. destruct (Rlt_dec x 0); [lra | reflexivity].
Qed.

Lemma np_divide_fin (x y : R) :
  y <> 0 -> np_divide (Fin x) (Fin y) = Fin (x / y).
Proof.
  intro Hy. simpl. destruct (Req_dec_T y 0); [contradiction | reflexivity].
Qed.

Lemma np_divide_fin_zero (x : R) : np_divide (Fin x) (Fin 0) = inf_of_sign x.
Proof.
  simpl. destruct (Req_dec_T 0 0) as [_ | Hn]; [reflexivity | now elim Hn].
Qed.



Lemma inf_of_sign_zero : inf_of_sign 0 = NaN.
Proof.
  unfold inf_of_sign.
  destruct (total_order_T 0 0) as [[Hlt | Heq] | Hgt]; try reflexivity; lra.
Qed.


Lemma Rpower_e (x : R) : Rpower e x = exp x.
Proof.
  unfold Rpower, e. rewrite ln_exp. f_equal. ring.
Qed.

Lemma np_float_power_e (x : R) : np_float_power e x = Fin (exp x).
Proof.
  unfold np_float_power. now rewrite Rpower_e.
Qed.

(** ** calc_black_scholes_merton *)


Lemma bsm_not_call (o : Option) :
  putOrcall o <> "call"%string -> K o <> 0 ->
  calc_black_scholes_merton o = Raise UnboundLocalError.
Proof.
  intros Hkind HK. unfold calc_black_scholes_merton.
  rewrite (py_truediv_nonzero _ _ HK). cbn [bind].
  destruct (String.eqb_spec (putOrcall o) "call") as [Heq | _];
    [contradiction | reflexivity].
Qed.

Lemma bsm_zero_strike (o : Option) :
  K o = 0 -> calc_black_scholes_merton o = Raise ZeroDivisionError.
Proof.
  intro HK. unfold calc_black_scholes_merton.
  rewrite HK, py_truediv_zero. reflexivity.
Qed.



(** C2.  The put branch.  At the put with K = 100, T = 1, S0 = 100, r = 0.05
    and sigma = 0.2 the function returns no value: reading discount_factor,
    which only the call branch assigns, raises UnboundLocalError. *)
Theorem bsm_put_raises :
  calc_black_scholes_merton (mkOption 100 1 100 (5 / 100) (2 / 10) "put")
  = Raise UnboundLocalError.
Proof.
  apply bsm_not_call; cbn [putOrcall K]; [discriminate | lra].
Qed.




(** *** Degenerate volatility or expiry *)








(** ** calc_expected_price *)

Lemma np_sum_fin (l : list R) (a : R) :
  fold_left np_add (map Fin l) (Fin a) = Fin (a + Rsum l).
Proof.
  revert a. induction l as [| x l IH]; intro a; cbn [map fold_left Rsum fold_right].
  - f_equal. ring.
  - cbn [np_add]. rewrite IH. unfold Rsum. f_equal. ring.
Qed.

Lemma INR_length_nonzero {A : Type} (l : list A) :
  l <> [] -> INR (length l) <> 0.
Proof.
  intro Hl. apply not_0_INR. destruct l; [contradiction | discriminate].
Qed.

Lemma np_average_fin (vs : list (list R)) :
  concat vs <> [] ->
  np_average (map (map Fin) vs) = Fin (mean (concat vs)).
Proof.
  intro Hne. unfold np_average, np_sum.
  rewrite <- concat_map, np_sum_fin, length_map.
  rewrite np_divide_fin by now apply INR_length_nonzero.
  unfold mean. f_equal. f_equal. ring.
Qed.

(** The payoffs of finite values are finite: the array of the [payoff]s. *)
Lemma payoffs_fin (o : Option) (vs : list (list R)) :
  (if (putOrcall o =? "call")%string
   then map (map (fun v => np_maximum0 (np_subtract v (Fin (K o)))))
          (map (map Fin) vs)
   else map (map (fun v => np_maximum0 (np_subtract (Fin (K o)) v)))
          (map (map Fin) vs))
  = map (map Fin) (map (map (payoff o)) vs).
Proof.
  unfold payoff. rewrite !map_map.
  destruct (putOrcall o =? "call")%string;
    apply map_ext; intro row; rewrite !map_map; reflexivity.
Qed.

Lemma expected_price_fin (o : Option) (vs : list (list R)) :
  concat vs <> [] ->
  calc_expected_price (map (map Fin) vs) o =
    Ok (Fin (mean (map (payoff o) (concat vs)) * exp (- (r o * T o)))).
Proof.
  intro Hne. unfold calc_expected_price. cbv zeta.
  rewrite payoffs_fin, np_average_fin, np_float_power_e.
  - rewrite <- concat_map. cbn [np_multiply].
    replace (-1 * r o * T o) with (- (r o * T o)) by ring. reflexivity.
  - rewrite <- concat_map. intro Hnil. apply map_eq_nil in Hnil. contradiction.
Qed.

Example expected_price_two_values :
  calc_expected_price [[Fin 90; Fin 120]]
    (mkOption 100 1 100 (5 / 100) (2 / 10) "call")
  = Ok (Fin ((0 + 20) / 2 * exp (- (5 / 100 * 1)))).
Proof.
  rewrite (expected_price_fin _ [[90; 120]]) by discriminate.
  unfold mean, payoff.
  cbn [putOrcall K r T String.eqb Ascii.eqb Bool.eqb concat app map Rsum
       fold_right length INR].
  rewrite Rmax_right by lra. rewrite Rmax_left by lra.
  do 2 f_equal. field.
Qed.

Lemma Rsum_const (c : R) (l : list R) :
  Forall (eq c) l -> Rsum l = INR (length l) * c.
Proof.
  induction 1 as [| x l Hx _ IH].
  - cbn. ring.
  - cbn [Rsum fold_right length]. fold (Rsum l). rewrite IH, S_INR, <- Hx. ring.
Qed.

Lemma mean_const (c : R) (l : list R) :
  l <> [] -> Forall (eq c) l -> mean l = c.
Proof.
  intros Hne Hall. unfold mean. rewrite (Rsum_const c l Hall).
  field. now apply INR_length_nonzero.
Qed.

(** C6.  On a non-empty array of (finite) simulated values,
    calc_expected_price returns the arithmetic mean of the payoffs of all
    the values, times e^(-r*T), the payoff of v being max(v - K, 0) for kind
    'call' and max(K - v, 0) otherwise; when all the values equal V, the
    kind is 'call' and K < V, this is (V - K)*e^(-r*T). *)
Theorem expected_price_is_discounted_mean (o : Option) (vs : list (list R)) :
  concat vs <> [] ->
  calc_expected_price (map (map Fin) vs) o =
    Ok (Fin (mean (map (payoff o) (concat vs)) * exp (- (r o * T o))))
  /\ (forall V : R,
        putOrcall o = "call"%string -> K o < V ->
        Forall (eq V) (concat vs) ->
        calc_expected_price (map (map Fin) vs) o =
          Ok (Fin ((V - K o) * exp (- (r o * T o))))).
Proof.
  intro Hne. split; [now apply expected_price_fin |].
  intros V Hkind HK Hall. rewrite (expected_price_fin _ _ Hne).
  rewrite (mean_const (V - K o)); [reflexivity | |].
  - intro Hnil. apply map_eq_nil in Hnil. contradiction.
  - apply Forall_map. revert Hall. apply Forall_impl.
    intros v <-. unfold payoff. rewrite Hkind. cbn [String.eqb Ascii.eqb Bool.eqb].
    symmetry. apply Rmax_left. lra.
Qed.

Lemma expected_price_is_discounted_mean_witness :
  let o := mkOption 100 1 100 (5 / 100) (2 / 10) "call" in
  let vs := [[110; 110]; [110; 110]] in
  calc_expected_price (map (map Fin) vs) o =
    Ok (Fin (mean (map (payoff o) (concat vs)) * exp (- (r o * T o))))
  /\ calc_expected_price (map (map Fin) vs) o =
       Ok (Fin ((110 - K o) * exp (- (r o * T o)))).
Proof.
  intros o vs.
  destruct (expected_price_is_discounted_mean o vs) as [Hmean Hconst].
  - discriminate.
  - split; [exact Hmean |]. apply Hconst.
    + reflexivity.
    + cbn [o K]. lra.
    + cbn [vs concat app]. repeat constructor.
Defined.

(** C8, as stated, fails: on an empty array calc_expected_price raises
    nothing and returns NaN. *)
Lemma expected_price_empty_returns_nan :
  calc_expected_price [] (mkOption 100 1 100 (5 / 100) (2 / 10) "call")
  = Ok NaN
  /\ forall err : exn,
       calc_expected_price [] (mkOption 100 1 100 (5 / 100) (2 / 10) "call")
       <> Raise err.
Proof.
  split; [| discriminate].
  unfold calc_expected_price, np_average, np_sum.
  cbn [putOrcall String.eqb Ascii.eqb Bool.eqb map concat length fold_left INR].
  rewrite np_divide_fin_zero, inf_of_sign_zero. reflexivity.
Qed.

(** C8, amended.  For every option, calc_expected_price applied to an
    array with no element checks nothing: it raises no error and returns
    NaN, the mean of nothing. *)
Theorem expected_price_of_nothing (o : Option) (paths : list (list float64)) :
  concat paths = [] -> calc_expected_price paths o = Ok NaN.
Proof.
  intro Hnil. unfold calc_expected_price. cbv zeta.
  assert (Havg : forall f : float64 -> float64,
             np_average (map (map f) paths) = NaN).
  { intro f. unfold np_average. rewrite <- concat_map, Hnil.
    cbn [map length INR np_sum fold_left].
    now rewrite np_divide_fin_zero, inf_of_sign_zero. }
  destruct (putOrcall o =? "call")%string; now rewrite Havg.
Qed.

Lemma expected_price_of_nothing_witness :
  calc_expected_price [[]; []] (mkOption 100 1 100 (5 / 100) (2 / 10) "put")
  = Ok NaN.
Proof.
  apply (expected_price_of_nothing
           (mkOption 100 1 100 (5 / 100) (2 / 10) "put") [[]; []]).
  reflexivity.
Defined.

(** ** Option.__init__ *)

Example lower_mixed_case : lower "CaLl" = "call"%string.
Proof. reflexivity. Qed.

(** C9, as stated, fails: a kind outside call and put is accepted, and
    stored in lower case. *)
Lemma init_accepts_unknown_kind :
  Option_init 100 1 100 (5 / 100) (2 / 10) "Straddle"
  = Ok (mkOption 100 1 100 (5 / 100) (2 / 10) "straddle")
  /\ forall err : exn,
       Option_init 100 1 100 (5 / 100) (2 / 10) "Straddle" <> Raise err.
Proof.
  split; [reflexivity | discriminate].
Qed.

(** C9, amended.  Constructing an Option never fails and validates
    nothing: whatever the kind string, the option is built with the kind in
    lower case and the other fields as given.  When that kind is not 'call'
    - 'put' or anything else alike - calc_expected_price uses the put payoff
    and calc_black_scholes_merton returns no value. *)
Theorem init_validates_nothing (K0 T0 S0 r0 sigma0 : R) (kind : string) :
  Option_init K0 T0 S0 r0 sigma0 kind
  = Ok (mkOption K0 T0 S0 r0 sigma0 (lower kind))
  /\ (lower kind <> "call"%string ->
      (forall paths : list (list float64),
         calc_expected_price paths (mkOption K0 T0 S0 r0 sigma0 (lower kind))
         = calc_expected_price paths (mkOption K0 T0 S0 r0 sigma0 "put"))
      /\ (forall v : float64,
            calc_black_scholes_merton (mkOption K0 T0 S0 r0 sigma0 (lower kind))
            <> Ok v)).
Proof.
  split; [reflexivity |]. intro Hkind. split.
  - intro paths. unfold calc_expected_price. cbn [putOrcall K r T].
    destruct (String.eqb_spec (lower kind) "call") as [Heq | _];
      [contradiction | reflexivity].
  - intro v. destruct (Req_dec_T K0 0) as [HK | HK].
    + rewrite bsm_zero_strike by exact HK. discriminate.
    + rewrite bsm_not_call by assumption. discriminate.
Qed.

Lemma init_validates_nothing_witness :
  Option_init 100 1 100 (5 / 100) (2 / 10) "Straddle"
  = Ok (mkOption 100 1 100 (5 / 100) (2 / 10) "straddle")
  /\ calc_expected_price [[Fin 90]]
       (mkOption 100 1 100 (5 / 100) (2 / 10) "straddle")
     = calc_expected_price [[Fin 90]]
         (mkOption 100 1 100 (5 / 100) (2 / 10) "put").
Proof.
  destruct (init_validates_nothing 100 1 100 (5 / 100) (2 / 10) "Straddle")
    as [Hinit Hrest].
  split; [exact Hinit |].
  destruct Hrest as [Hprice _]; [discriminate | apply Hprice].
Defined.

(** ** simulate *)

Lemma simulate_loop_exit (N : Z) (o : Option) (dt : R)
    (st : list (list float64) * ndval) (n : Z) (g : RandomState) :
  (N < n)%Z -> simulate_loop N o dt st n g = Ok (st, g).
Proof.
  intro Hn. rewrite simulate_loop_equation_1.
  destruct (Z_le_dec n N) as [Hle | Hgt]; [lia | reflexivity].
Qed.

Lemma simulate_loop_iter (N : Z) (o : Option) (dt : R)
    (st : list (list float64) * ndval) (n : Z) (g : RandomState) :
  (n <= N)%Z ->
  simulate_loop N o dt st n g =
    match simulate_step N o dt st g with
    | Ok (st', g') => simulate_loop N o dt st' (n + 1) g'
    | Raise err => Raise err
    end.
Proof.
  intro Hn. rewrite simulate_loop_equation_1.
  destruct (Z_le_dec n N) as [Hle | Hgt]; [| lia].
  cbn. destruct (simulate_step N o dt st g) as [[st' g'] | err]; reflexivity.
Qed.

(** C10.  simulate(0, option, dt) returns the empty sequence without error,
    for every option and every dt: the loop body is never run, and the
    generator is left as it was. *)
Theorem simulate_zero (o : Option) (dt : R) (g : RandomState) :
  simulate 0 o dt g = Ok ([], g).
Proof.
  unfold simulate. now rewrite simulate_loop_exit by lia.
Qed.

(** *** One step *)

Lemma length_shocks (g : RandomState) (N : nat) (dt : R) (k : nat) :
  length (shocks g N dt k) = N.
Proof.
  unfold shocks. now rewrite length_map, length_seq.
Qed.

Lemma length_advance (o : Option) (dt : R) (prev z : list R) :
  length (advance o dt prev z) = Nat.min (length prev) (length z).
Proof.
  unfold advance. now rewrite length_map, length_combine.
Qed.

Lemma shocks_skip (g : RandomState) (N : nat) (dt : R) (k : nat) :
  shocks (skip g N) N dt k = shocks g N dt (S k).
Proof.
  unfold shocks, skip. cbn [variates position].
  apply map_ext. intro i. do 2 f_equal. lia.
Qed.

Lemma skip_skip (g : RandomState) (a b : nat) :
  skip (skip g a) b = skip g (a + b).
Proof.
  unfold skip. cbn [variates position]. f_equal. lia.
Qed.

Lemma skip_zero (g : RandomState) : skip g 0 = g.
Proof.
  destruct g as [v p]. unfold skip. cbn [variates position]. f_equal. lia.
Qed.

(** A scalar level behaves as the vector that repeats it. *)
Lemma advance_repeat (o : Option) (dt s : R) (z : list R) :
  advance o dt (repeat s (length z)) z =
    map (fun x => s + r o * dt + sigma o * S_0 o * x) z.
Proof.
  unfold advance. induction z as [| x z IH]; [reflexivity |].
  cbn [length repeat combine map fst snd]. now rewrite IH.
Qed.

Lemma zip_add_fin (xs ys : list R) :
  zip_add (map Fin xs) (map Fin ys) =
    map Fin (map (fun p => fst p + snd p) (combine xs ys)).
Proof.
  revert ys. induction xs as [| x xs IH]; intros [| y ys]; try reflexivity.
  cbn [map zip_add combine fst snd np_add]. now rewrite IH.
Qed.

Lemma combine_map_both {A B C D : Type} (f : A -> C) (h : B -> D)
    (xs : list A) (ys : list B) :
  combine (map f xs) (map h ys) =
    map (fun p => (f (fst p), h (snd p))) (combine xs ys).
Proof.
  revert ys. induction xs as [| x xs IH]; intros [| y ys]; try reflexivity.
  cbn [map combine fst snd]. now rewrite IH.
Qed.

(** The variates drawn by one call of [np.random.normal(0, sqrt(dt), N)]. *)
Lemma np_random_normal_shocks (N : Z) (dt : R) (g : RandomState) :
  (0 <= N)%Z -> 0 <= dt ->
  np_random_normal (Fin 0) (np_sqrt dt) N g =
    Ok (map Fin (shocks g (Z.to_nat N) dt 0), skip g (Z.to_nat N)).
Proof.
  intros HN Hdt. unfold np_random_normal.
  rewrite (np_sqrt_nonneg _ Hdt). cbn [negative_scale].
  destruct (Rlt_dec (sqrt dt) 0) as [Hneg | _].
  { pose proof (sqrt_pos dt). lra. }
  destruct (Z.ltb_spec N 0) as [Hlt | _]; [lia |].
  unfold shocks, skip. rewrite map_map. do 2 f_equal.
  apply map_ext. intro i. cbn [np_multiply np_add]. f_equal.
  rewrite Nat.mul_0_l, Nat.add_0_r. ring.
Qed.

Lemma add_array_represents (o : Option) (dt : R) (N : nat) (S_t : ndval)
    (prev z : list R) :
  represents N S_t prev -> length z = N ->
  add_array (add_scalar S_t (Fin (r o * dt)))
    (map (np_multiply (Fin (sigma o * S_0 o))) (map Fin z))
  = Ok (map Fin (advance o dt prev z)).
Proof.
  intros [[s [-> ->]] | [-> Hlen]] Hz.
  - cbn [add_scalar np_add add_array]. rewrite <- Hz, advance_repeat.
    rewrite !map_map. reflexivity.
  - cbn [add_scalar add_array]. rewrite !length_map, Hlen, Hz, Nat.eqb_refl.
    rewrite !map_map.
    change (fun x : R => np_add (Fin x) (Fin (r o * dt)))
      with (fun x : R => Fin (x + r o * dt)).
    change (fun x : R => np_multiply (Fin (sigma o * S_0 o)) (Fin x))
      with (fun x : R => Fin (sigma o * S_0 o * x)).
    rewrite <- (map_map (fun x => x + r o * dt) Fin).
    rewrite <- (map_map (fun x => sigma o * S_0 o * x) Fin).
    rewrite zip_add_fin, combine_map_both. unfold advance.
    rewrite !map_map. reflexivity.
Qed.

Lemma simulate_step_advance (N : Z) (o : Option) (dt : R)
    (paths : list (list float64)) (S_t : ndval) (prev : list R)
    (g : RandomState) :
  (0 <= N)%Z -> 0 <= dt -> represents (Z.to_nat N) S_t prev ->
  let next := advance o dt prev (shocks g (Z.to_nat N) dt 0) in
  simulate_step N o dt (paths, S_t) g =
    Ok ((paths ++ [map Fin next], Array (map Fin next)),
        skip g (Z.to_nat N)).
Proof.
  intros HN Hdt Hrep next. unfold simulate_step, mbind.
  rewrite (np_random_normal_shocks _ _ _ HN Hdt).
  unfold lift.
  rewrite (add_array_represents o dt _ _ _ _ Hrep (length_shocks _ _ _ _)).
  reflexivity.
Qed.

(** *** The loop *)

(** With [k] iterations left, the loop appends the [k] rows of the walk
    from the current levels and consumes [k * N] variates. *)
Lemma simulate_loop_walk (N : Z) (o : Option) (dt : R) :
  (0 <= N)%Z -> 0 <= dt ->
  forall (k : nat) (n : Z) (paths : list (list float64)) (S_t : ndval)
         (prev : list R) (g : RandomState),
    (N + 1 - n)%Z = Z.of_nat k ->
    represents (Z.to_nat N) S_t prev ->
    exists S_end : ndval,
      simulate_loop N o dt (paths, S_t) n g =
        Ok ((paths ++ map (map Fin) (walk o dt (Z.to_nat N) k prev g), S_end),
            skip g (k * Z.to_nat N)).
Proof.
  intros HN Hdt. induction k as [| k IH]; intros n paths S_t prev g Hk Hrep.
  - exists S_t. rewrite simulate_loop_exit by lia.
    cbn [walk map Nat.mul]. now rewrite app_nil_r, skip_zero.
  - rewrite simulate_loop_iter by lia.
    rewrite (simulate_step_advance N o dt paths S_t prev g HN Hdt Hrep).
    cbv zeta. set (next := advance o dt prev (shocks g (Z.to_nat N) dt 0)).
    destruct (IH (n + 1)%Z (paths ++ [map Fin next]) (Array (map Fin next))
                next (skip g (Z.to_nat N))) as [S_end Hloop].
    + lia.
    + right. split; [reflexivity |].
      unfold next. rewrite length_advance, length_shocks.
      destruct Hrep as [[s [_ ->]] | [_ Hlen]].
      * rewrite repeat_length. apply Nat.min_id.
      * rewrite Hlen. apply Nat.min_id.
    + exists S_end. rewrite Hloop, skip_skip, <- app_assoc. reflexivity.
Qed.

Lemma length_walk (o : Option) (dt : R) (N k : nat) (prev : list R)
    (g : RandomState) :
  length (walk o dt N k prev g) = k.
Proof.
  revert prev g. induction k as [| k IH]; intros prev g; cbn [walk length].
  - reflexivity.
  - now rewrite IH.
Qed.

Lemma walk_row_lengths (o : Option) (dt : R) (N k : nat) (prev : list R)
    (g : RandomState) :
  length prev = N ->
  Forall (fun row => length row = N) (walk o dt N k prev g).
Proof.
  revert prev g. induction k as [| k IH]; intros prev g Hlen; cbn [walk].
  - constructor.
  - assert (Hnext : length (advance o dt prev (shocks g N dt 0)) = N).
    { rewrite length_advance, length_shocks, Hlen. apply Nat.min_id. }
    constructor; [exact Hnext | now apply IH].
Qed.

(** The rows of the walk obey the recurrence, step after step. *)
Lemma walk_recurrence (o : Option) (dt : R) (N k : nat) :
  forall (prev : list R) (g : RandomState) (i : nat),
    (S i < k)%nat ->
    nth (S i) (walk o dt N k prev g) [] =
      advance o dt (nth i (walk o dt N k prev g) []) (shocks g N dt (S i)).
Proof.
  induction k as [| k IH]; intros prev g i Hi; [lia |].
  cbn [walk nth]. destruct i as [| i].
  - destruct k as [| k]; [lia |]. cbn [walk nth]. now rewrite shocks_skip.
  - rewrite IH by lia. now rewrite shocks_skip.
Qed.

Lemma length_concat_uniform {A : Type} (m : nat) (rows : list (list A)) :
  Forall (fun row => length row = m) rows ->
  length (concat rows) = (length rows * m)%nat.
Proof.
  induction 1 as [| row rows Hrow _ IH]; [reflexivity |].
  cbn [concat length]. rewrite length_app, Hrow, IH. reflexivity.
Qed.

(** What [simulate] returns for a count that is not negative and a time
    increment that is not negative. *)
Lemma simulate_walk (N : Z) (o : Option) (dt : R) (g : RandomState) :
  (0 <= N)%Z -> 0 <= dt ->
  simulate N o dt g =
    Ok (map (map Fin)
          (walk o dt (Z.to_nat N) (Z.to_nat N)
             (repeat (S_0 o) (Z.to_nat N)) g),
        skip g (Z.to_nat N * Z.to_nat N)).
Proof.
  intros HN Hdt. unfold simulate.
  destruct (simulate_loop_walk N o dt HN Hdt (Z.to_nat N) 1 []
              (Scalar (Fin (S_0 o))) (repeat (S_0 o) (Z.to_nat N)) g)
    as [S_end Hloop].
  - lia.
  - left. now exists (S_0 o).
  - rewrite Hloop. reflexivity.
Qed.

(** Two steps of two values each: the first row starts from the scalar S0,
    the second from the first row, and the four variates are taken in
    order. *)
Example simulate_two_steps :
  simulate 2 (mkOption 100 1 100 0 1 "call") 1
    (mkRandomState (fun i => INR i) 0)
  = Ok ([[Fin (100 + 0 * 1 + 1 * 100 * (sqrt 1 * 0));
          Fin (100 + 0 * 1 + 1 * 100 * (sqrt 1 * 1))];
         [Fin (100 + 0 * 1 + 1 * 100 * (sqrt 1 * 0)
               + 0 * 1 + 1 * 100 * (sqrt 1 * (1 + 1)));
          Fin (100 + 0 * 1 + 1 * 100 * (sqrt 1 * 1)
               + 0 * 1 + 1 * 100 * (sqrt 1 * (1 + 1 + 1)))]],
        mkRandomState (fun i => INR i) 4).
Proof.
  rewrite simulate_walk by (lia || lra).
  reflexivity.
Qed.

(** C4.  For a positive count N and dt > 0, simulate(N, option, dt) returns
    exactly N rows, each of length exactly N: N*N values in all. *)
Theorem simulate_shape (N : Z) (o : Option) (dt : R) (g : RandomState) :
  (0 < N)%Z -> 0 < dt ->
  exists (rows : list (list float64)) (g' : RandomState),
    simulate N o dt g = Ok (rows, g')
    /\ length rows = Z.to_nat N
    /\ Forall (fun row => length row = Z.to_nat N) rows
    /\ length (concat rows) = (Z.to_nat N * Z.to_nat N)%nat.
Proof.
  intros HN Hdt. do 2 eexists. split.
  - apply simulate_walk; [lia | lra].
  - assert (Hrows : Forall (fun row : list float64 => length row = Z.to_nat N)
                      (map (map Fin)
                         (walk o dt (Z.to_nat N) (Z.to_nat N)
                            (repeat (S_0 o) (Z.to_nat N)) g))).
    { apply Forall_map.
      generalize (walk_row_lengths o dt (Z.to_nat N) (Z.to_nat N)
                    (repeat (S_0 o) (Z.to_nat N)) g (repeat_length _ _)).
      apply Forall_impl. intros row Hrow. now rewrite length_map. }
    split; [| split].
    + now rewrite length_map, length_walk.
    + exact Hrows.
    + rewrite (length_concat_uniform _ _ Hrows).
      now rewrite length_map, length_walk.
Qed.

Lemma simulate_shape_witness :
  let o := mkOption 100 1 100 (5 / 100) (2 / 10) "call" in
  let g := mkRandomState (fun i => INR i) 0 in
  exists (rows : list (list float64)) (g' : RandomState),
    simulate 3 o (1 / 100) g = Ok (rows, g')
    /\ length rows = 3%nat
    /\ Forall (fun row => length row = 3%nat) rows
    /\ length (concat rows) = 9%nat.
Proof.
  intros o g. apply (simulate_shape 3 o (1 / 100) g); [lia | lra].
Defined.

(** C5.  For a positive count N and dt > 0, whatever variates the generator
    delivers, the rows of simulate(N, option, dt) are
    row_1 = S0 + r*dt + sigma*S0*Z_1 and, for n = 2..N,
    row_n = row_(n-1) + r*dt + sigma*S0*Z_n elementwise, where Z_n is the
    vector of the n-th N variates, each scaled by sqrt(dt): the running level
    starts as the scalar S0 and then is the row just produced.  (Rows and
    shock vectors are counted from 0 below.) *)
Theorem simulate_recurrence (N : Z) (o : Option) (dt : R) (g : RandomState) :
  (0 < N)%Z -> 0 < dt ->
  exists rows : list (list R),
    simulate N o dt g =
      Ok (map (map Fin) rows, skip g (Z.to_nat N * Z.to_nat N))
    /\ length rows = Z.to_nat N
    /\ nth 0 rows [] =
         map (fun z => S_0 o + r o * dt + sigma o * S_0 o * z)
           (shocks g (Z.to_nat N) dt 0)
    /\ (forall i : nat,
          (S i < Z.to_nat N)%nat ->
          nth (S i) rows [] =
            advance o dt (nth i rows []) (shocks g (Z.to_nat N) dt (S i))).
Proof.
  intros HN Hdt.
  exists (walk o dt (Z.to_nat N) (Z.to_nat N) (repeat (S_0 o) (Z.to_nat N)) g).
  split; [apply simulate_walk; lia || lra |].
  split; [apply length_walk |].
  split; [| intros i Hi; now apply walk_recurrence].
  destruct (Z.to_nat N) as [| k] eqn:Hk; [lia |].
  cbn [walk nth].
  rewrite <- (length_shocks g (S k) dt 0) at 1.
  apply advance_repeat.
Qed.

Lemma simulate_recurrence_witness :
  let o := mkOption 100 1 100 (5 / 100) (2 / 10) "call" in
  let g := mkRandomState (fun i => INR i) 0 in
  exists rows : list (list R),
    simulate 3 o (1 / 100) g = Ok (map (map Fin) rows, skip g 9)
    /\ length rows = 3%nat
    /\ nth 0 rows [] =
         map (fun z => S_0 o + r o * (1 / 100) + sigma o * S_0 o * z)
           (shocks g 3 (1 / 100) 0)
    /\ (forall i : nat,
          (S i < 3)%nat ->
          nth (S i) rows [] =
            advance o (1 / 100) (nth i rows []) (shocks g 3 (1 / 100) (S i))).
Proof.
  intros o g. apply (simulate_recurrence 3 o (1 / 100) g); [lia | lra].
Defined.

(** * Further properties of the code *)

(** ** Option.__init__: the stored kind *)

Lemma lower_char_idempotent (c : ascii) :
  lower_char (lower_char c) = lower_char c.
Proof.
  destruct c as [[] [] [] [] [] [] [] []]; reflexivity.
Qed.

Lemma lower_idempotent (s : string) : lower (lower s) = lower s.
Proof.
  induction s as [| c s IH]; [reflexivity |].
  cbn [lower]. now rewrite lower_char_idempotent, IH.
Qed.

(** X1.  The kind stored by the constructor is already in lower case:
    building an option again from the fields of a constructed option,
    stored kind included, gives that same option. *)
Theorem init_stored_kind_is_normal (K0 T0 S0 r0 sigma0 : R) (kind : string)
    (o : Option) :
  Option_init K0 T0 S0 r0 sigma0 kind = Ok o ->
  Option_init (K o) (T o) (S_0 o) (r o) (sigma o) (putOrcall o) = Ok o.
Proof.
  unfold Option_init. intro Hinit. injection Hinit as <-.
  cbn [K T S_0 r sigma putOrcall]. now rewrite lower_idempotent.
Qed.

Lemma init_stored_kind_is_normal_witness :
  let o := mkOption 100 1 100 (5 / 100) (2 / 10) "call" in
  Option_init (K o) (T o) (S_0 o) (r o) (sigma o) (putOrcall o) = Ok o.
Proof.
  intro o.
  apply (init_stored_kind_is_normal 100 1 100 (5 / 100) (2 / 10) "CaLl" o).
  reflexivity.
Defined.

(** ** calc_black_scholes_merton: every outcome *)






(** ** simulate: counts, closed form, variates read *)

Lemma np_average_of_nothing (a : list (list float64)) :
  concat a = [] -> np_average a = NaN.
Proof.
  intro Hnil. unfold np_average. rewrite Hnil.
  cbn [length INR np_sum fold_left].
  now rewrite np_divide_fin_zero, inf_of_sign_zero.
Qed.

(** X5.  For a count that is zero or negative, simulate returns the empty
    sequence without error and without drawing from the generator, whatever
    dt is; the price estimated from that result is NaN. *)
Theorem simulate_nonpositive_count (N : Z) (o : Option) (dt : R)
    (g : RandomState) :
  (N <= 0)%Z ->
  simulate N o dt g = Ok ([], g) /\ calc_expected_price [] o = Ok NaN.
Proof.
  intro HN. split.
  - unfold simulate. now rewrite simulate_loop_exit by lia.
  - unfold calc_expected_price. cbv zeta.
    destruct (putOrcall o =? "call")%string;
      now rewrite np_average_of_nothing.
Qed.

Lemma simulate_nonpositive_count_witness :
  let o := mkOption 100 1 100 (5 / 100) (2 / 10) "call" in
  let g := mkRandomState (fun i => INR i) 0 in
  simulate (-3) o (-1) g = Ok ([], g) /\ calc_expected_price [] o = Ok NaN.
Proof.
  intros o g. apply (simulate_nonpositive_count (-3) o (-1) g). lia.
Defined.

Lemma nth_advance (o : Option) (dt : R) (prev z : list R) (i : nat) :
  (i < length prev)%nat -> (i < length z)%nat ->
  nth i (advance o dt prev z) 0 =
    nth i prev 0 + r o * dt + sigma o * S_0 o * nth i z 0.
Proof.
  unfold advance. revert z i.
  induction prev as [| s prev IH]; intros [| x z] i Hp Hz;
    cbn [length] in Hp, Hz; try lia.
  destruct i as [| i]; cbn [combine map nth fst snd]; [reflexivity |].
  apply IH; lia.
Qed.

Lemma nth_shocks (g : RandomState) (N : nat) (dt : R) (k i : nat) :
  (i < N)%nat ->
  nth i (shocks g N dt k) 0 =
    sqrt dt * variates g (position g + k * N + i)%nat.
Proof.
  intro Hi. unfold shocks.
  rewrite (nth_indep _ 0
             (sqrt dt * variates g (position g + k * N + 0)%nat))
    by now rewrite length_map, length_seq.
  rewrite (map_nth (fun j => sqrt dt * variates g (position g + k * N + j)%nat)).
  now rewrite seq_nth.
Qed.

Lemma column_sum_skip (g : RandomState) (N i n : nat) :
  column_sum g N i (S n) =
    variates g (position g + i) + column_sum (skip g N) N i n.
Proof.
  induction n as [| n IH].
  - cbn [column_sum]. rewrite Nat.mul_0_l, Nat.add_0_r. ring.
  - change (column_sum g N i (S (S n)))
      with (column_sum g N i (S n)
            + variates g (position g + S n * N + i)%nat).
    rewrite IH. cbn [column_sum skip variates position].
    replace (position g + N + n * N + i)%nat
      with (position g + S n * N + i)%nat by lia.
    ring.
Qed.

(** The value in row [n] and column [i] of a walk, in closed form. *)
Lemma walk_closed_form (o : Option) (dt : R) (N k : nat) :
  forall (prev : list R) (g : RandomState) (n i : nat),
    length prev = N -> (n < k)%nat -> (i < N)%nat ->
    nth i (nth n (walk o dt N k prev g) []) 0 =
      nth i prev 0 + INR (S n) * (r o * dt)
      + sigma o * S_0 o * (sqrt dt * column_sum g N i (S n)).
Proof.
  induction k as [| k IH]; intros prev g n i Hlen Hn Hi; [lia |].
  assert (Hfirst : nth i (advance o dt prev (shocks g N dt 0)) 0 =
                     nth i prev 0 + r o * dt
                     + sigma o * S_0 o
                       * (sqrt dt * variates g (position g + i)%nat)).
  { rewrite nth_advance, nth_shocks by (rewrite ?length_shocks; lia).
    now rewrite Nat.mul_0_l, Nat.add_0_r. }
  cbn [walk]. destruct n as [| n]; cbn [nth].
  - rewrite Hfirst. cbn [column_sum INR].
    rewrite Nat.mul_0_l, Nat.add_0_r. ring.
  - rewrite IH; [| | lia | lia].
    + rewrite Hfirst, (column_sum_skip g N i (S n)), (S_INR (S n)). ring.
    + rewrite length_advance, length_shocks, Hlen. apply Nat.min_id.
Qed.

(** X6.  The closed form of the simulated values.  For a count N >= 0 and
    dt >= 0, the value in row k and column i (both counted from 0) is
    S0 + (k+1)*r*dt + sigma*S0*sqrt(dt)*(z_0 + ... + z_k), where z_j is the
    variate of column i in the j-th block of N variates: every column is an
    arithmetic random walk of its own, with the drift and the shocks not
    scaled by the current level. *)
Theorem simulate_closed_form (N : Z) (o : Option) (dt : R) (g : RandomState) :
  (0 <= N)%Z -> 0 <= dt ->
  exists rows : list (list R),
    simulate N o dt g =
      Ok (map (map Fin) rows, skip g (Z.to_nat N * Z.to_nat N))
    /\ forall k i : nat,
         (k < Z.to_nat N)%nat -> (i < Z.to_nat N)%nat ->
         nth i (nth k rows []) 0 =
           S_0 o + INR (S k) * (r o * dt)
           + sigma o * S_0 o * (sqrt dt * column_sum g (Z.to_nat N) i (S k)).
Proof.
  intros HN Hdt.
  exists (walk o dt (Z.to_nat N) (Z.to_nat N) (repeat (S_0 o) (Z.to_nat N)) g).
  split; [now apply simulate_walk |].
  intros k i Hk Hi.
  rewrite walk_closed_form by (rewrite ?repeat_length; lia).
  now rewrite nth_repeat_lt.
Qed.

Lemma simulate_closed_form_witness :
  let o := mkOption 100 1 100 (5 / 100) (2 / 10) "call" in
  let g := mkRandomState (fun i => INR i) 0 in
  exists rows : list (list R),
    simulate 3 o (1 / 100) g = Ok (map (map Fin) rows, skip g 9)
    /\ forall k i : nat,
         (k < 3)%nat -> (i < 3)%nat ->
         nth i (nth k rows []) 0 =
           S_0 o + INR (S k) * (r o * (1 / 100))
           + sigma o * S_0 o * (sqrt (1 / 100) * column_sum g 3 i (S k)).
Proof.
  intros o g. apply (simulate_closed_form 3 o (1 / 100) g); [lia | lra].
Defined.

(** X7.  With sigma = 0 or dt = 0 the variates play no part: for N >= 0 and
    dt >= 0, every value of row k (counted from 0) is S0 + (k+1)*r*dt. *)
Theorem simulate_without_noise (N : Z) (o : Option) (dt : R)
    (g : RandomState) :
  (0 <= N)%Z -> 0 <= dt -> sigma o = 0 \/ dt = 0 ->
  exists rows : list (list R),
    simulate N o dt g =
      Ok (map (map Fin) rows, skip g (Z.to_nat N * Z.to_nat N))
    /\ forall k i : nat,
         (k < Z.to_nat N)%nat -> (i < Z.to_nat N)%nat ->
         nth i (nth k rows []) 0 = S_0 o + INR (S k) * (r o * dt).
Proof.
  intros HN Hdt Hquiet.
  exists (walk o dt (Z.to_nat N) (Z.to_nat N) (repeat (S_0 o) (Z.to_nat N)) g).
  split; [now apply simulate_walk |].
  intros k i Hk Hi.
  rewrite walk_closed_form by (rewrite ?repeat_length; lia).
  rewrite nth_repeat_lt by lia.
  destruct Hquiet as [Hs | Hz].
  - rewrite Hs. ring.
  - rewrite Hz, sqrt_0. ring.
Qed.

Lemma simulate_without_noise_witness :
  let o := mkOption 100 1 100 (5 / 100) 0 "call" in
  let g := mkRandomState (fun i => INR i) 0 in
  exists rows : list (list R),
    simulate 3 o (1 / 100) g = Ok (map (map Fin) rows, skip g 9)
    /\ forall k i : nat,
         (k < 3)%nat -> (i < 3)%nat ->
         nth i (nth k rows []) 0 = S_0 o + INR (S k) * (r o * (1 / 100)).
Proof.
  intros o g.
  apply (simulate_without_noise 3 o (1 / 100) g); [lia | lra | now left].
Defined.

Lemma walk_ext (o : Option) (dt : R) (N k : nat) :
  forall (prev : list R) (g1 g2 : RandomState),
    (forall j : nat,
       (j < k * N)%nat ->
       variates g1 (position g1 + j) = variates g2 (position g2 + j)) ->
    walk o dt N k prev g1 = walk o dt N k prev g2.
Proof.
  induction k as [| k IH]; intros prev g1 g2 Hsame; [reflexivity |].
  cbn [walk].
  assert (Hshocks : shocks g1 N dt 0 = shocks g2 N dt 0).
  { unfold shocks. apply map_ext_in. intros i Hi. apply in_seq in Hi.
    rewrite !Nat.mul_0_l, !Nat.add_0_r. f_equal. apply Hsame.
    cbn [Nat.mul]. lia. }
  rewrite Hshocks. f_equal. apply IH.
  intros j Hj. cbn [skip variates position].
  rewrite <- !Nat.add_assoc. apply Hsame. cbn [Nat.mul]. lia.
Qed.

(** X8.  simulate reads the next N*N variates of the generator and nothing
    else: for N >= 0 and dt >= 0, two generators that agree on their next
    N*N variates give the same rows, and each is left N*N variates
    further. *)
Theorem simulate_reads_next_block (N : Z) (o : Option) (dt : R)
    (g1 g2 : RandomState) :
  (0 <= N)%Z -> 0 <= dt ->
  (forall j : nat,
     (j < Z.to_nat N * Z.to_nat N)%nat ->
     variates g1 (position g1 + j) = variates g2 (position g2 + j)) ->
  exists rows : list (list float64),
    simulate N o dt g1 = Ok (rows, skip g1 (Z.to_nat N * Z.to_nat N))
    /\ simulate N o dt g2 = Ok (rows, skip g2 (Z.to_nat N * Z.to_nat N)).
Proof.
  intros HN Hdt Hsame. eexists. split.
  - now apply simulate_walk.
  - rewrite (simulate_walk N o dt g2 HN Hdt).
    now rewrite (walk_ext o dt _ _ _ g1 g2 Hsame).
Qed.

Lemma simulate_reads_next_block_witness :
  let o := mkOption 100 1 100 (5 / 100) (2 / 10) "call" in
  let g1 := mkRandomState (fun i => INR (Nat.min i 4)) 0 in
  let g2 := mkRandomState (fun i => INR (Nat.min (i - 5) 4)) 5 in
  exists rows : list (list float64),
    simulate 2 o (1 / 100) g1 = Ok (rows, skip g1 4)
    /\ simulate 2 o (1 / 100) g2 = Ok (rows, skip g2 4).
Proof.
  intros o g1 g2.
  apply (simulate_reads_next_block 2 o (1 / 100) g1 g2); [lia | lra |].
  intros j Hj. cbn [g1 g2 variates position]. f_equal. lia.
Defined.

(** ** calc_expected_price: bounds, parity, NaN, order of the values *)







Lemma Rsum_map_minus (f h : R -> R) (l : list R) :
  Rsum (map f l) - Rsum (map h l) = Rsum (map (fun v => f v - h v) l).
Proof.
  induction l as [| v l IH]; cbn [map Rsum fold_right]; [ring |].
  fold (Rsum (map f l)) (Rsum (map h l))
       (Rsum (map (fun v => f v - h v) l)).
  rewrite <- IH. ring.
Qed.

Lemma Rsum_map_shift (c : R) (l : list R) :
  Rsum (map (fun v => v - c) l) = Rsum l - INR (length l) * c.
Proof.
  induction l as [| v l IH]; [cbn; ring |].
  cbn [map Rsum fold_right length].
  fold (Rsum (map (fun v => v - c) l)) (Rsum l).
  rewrite IH, S_INR. ring.
Qed.

(** X10.  Parity on the sample.  For a call and an option of any other kind
    with the same K, r and T, priced on the same non-empty array of finite
    values, the call price minus the other price is
    (mean of the values - K)*e^(-r*T). *)
Theorem expected_price_parity (oc op : Option) (vs : list (list R)) :
  putOrcall oc = "call"%string -> putOrcall op <> "call"%string ->
  K oc = K op -> r oc = r op -> T oc = T op ->
  concat vs <> [] ->
  exists c p : R,
    calc_expected_price (map (map Fin) vs) oc = Ok (Fin c)
    /\ calc_expected_price (map (map Fin) vs) op = Ok (Fin p)
    /\ c - p = (mean (concat vs) - K oc) * exp (- (r oc * T oc)).
Proof.
  intros Hc Hp HK Hr HT Hne. do 2 eexists.
  split; [now apply expected_price_fin |].
  split; [now apply expected_price_fin |].
  rewrite <- Hr, <- HT. unfold mean. rewrite !length_map.
  assert (Hdiff : Rsum (map (payoff oc) (concat vs))
                  - Rsum (map (payoff op) (concat vs))
                  = Rsum (concat vs) - INR (length (concat vs)) * K oc).
  { rewrite Rsum_map_minus, <- Rsum_map_shift. f_equal.
    apply map_ext. intro v. unfold payoff. rewrite Hc, <- HK.
    destruct (String.eqb_spec (putOrcall op) "call") as [Heq | _];
      [contradiction |].
    cbn [String.eqb Ascii.eqb Bool.eqb].
    destruct (Rle_dec (K oc) v) as [Hle | Hgt].
    - rewrite Rmax_left, Rmax_right by lra. ring.
    - rewrite Rmax_right, Rmax_left by lra. ring. }
  pose proof (INR_length_nonzero _ Hne) as Hn.
  replace (Rsum (map (payoff oc) (concat vs)))
    with (Rsum (map (payoff op) (concat vs))
          + (Rsum (concat vs) - INR (length (concat vs)) * K oc)) by lra.
  field. exact Hn.
Qed.

Lemma expected_price_parity_witness :
  let oc := mkOption 100 1 100 (5 / 100) (2 / 10) "call" in
  let op := mkOption 100 1 100 (5 / 100) (2 / 10) "put" in
  let vs := [[90; 120]; [80; 130]] in
  exists c p : R,
    calc_expected_price (map (map Fin) vs) oc = Ok (Fin c)
    /\ calc_expected_price (map (map Fin) vs) op = Ok (Fin p)
    /\ c - p = (mean (concat vs) - K oc) * exp (- (r oc * T oc)).
Proof.
  intros oc op vs.
  apply (expected_price_parity oc op vs);
    try reflexivity; discriminate.
Defined.

Lemma np_sum_nan_acc (l : list float64) : fold_left np_add l NaN = NaN.
Proof.
  induction l as [| a l IH]; [reflexivity | exact IH].
Qed.

Lemma np_add_nan_r (a : float64) : np_add a NaN = NaN.
Proof. now destruct a. Qed.

Lemma np_sum_nan (l : list float64) (a : float64) :
  In NaN l -> fold_left np_add l a = NaN.
Proof.
  revert a. induction l as [| b l IH]; intros a Hin; [contradiction |].
  cbn [fold_left]. destruct Hin as [-> | Hin].
  - rewrite np_add_nan_r. apply np_sum_nan_acc.
  - now apply IH.
Qed.

(** X11.  A single NaN among the simulated values makes the price NaN, for
    either kind and without any error. *)
Theorem expected_price_nan (o : Option) (paths : list (list float64)) :
  In NaN (concat paths) -> calc_expected_price paths o = Ok NaN.
Proof.
  intro Hin. unfold calc_expected_price. cbv zeta.
  assert (Havg : forall f : float64 -> float64,
             f NaN = NaN -> np_average (map (map f) paths) = NaN).
  { intros f Hf. unfold np_average, np_sum. rewrite <- concat_map.
    rewrite np_sum_nan; [reflexivity |].
    rewrite <- Hf. now apply in_map. }
  destruct (putOrcall o =? "call")%string; now rewrite Havg.
Qed.

Lemma expected_price_nan_witness :
  calc_expected_price [[Fin 90; Fin 120]; [NaN; Fin 130]]
    (mkOption 100 1 100 (5 / 100) (2 / 10) "call")
  = Ok NaN.
Proof.
  apply (expected_price_nan
           (mkOption 100 1 100 (5 / 100) (2 / 10) "call")
           [[Fin 90; Fin 120]; [NaN; Fin 130]]).
  cbn [concat app In]. tauto.
Defined.



(** The price on an array of finite values, empty or not. *)
Lemma expected_price_fin_any (o : Option) (vs : list (list R)) :
  calc_expected_price (map (map Fin) vs) o =
    Ok (np_multiply
          (np_divide (Fin (Rsum (map (payoff o) (concat vs))))
             (Fin (INR (length (concat vs)))))
          (Fin (exp (- (r o * T o))))).
Proof.
  unfold calc_expected_price. cbv zeta.
  rewrite payoffs_fin, np_float_power_e. unfold np_average, np_sum.
  rewrite <- !concat_map, np_sum_fin, !length_map, Rplus_0_l.
  replace (-1 * r o * T o) with (- (r o * T o)) by ring. reflexivity.
Qed.

Lemma Rsum_permutation (l l' : list R) :
  Permutation l l' -> Rsum l = Rsum l'.
Proof.
  induction 1 as [| x l l' _ IH | x y l | l l' l'' _ IH1 _ IH2];
    cbn [Rsum fold_right].
  - reflexivity.
  - fold (Rsum l) (Rsum l'). now rewrite IH.
  - ring.
  - now rewrite IH1.
Qed.

(** X13.  The price depends on the finite simulated values only through
    their collection: two arrays whose values are the same up to order,
    whatever their shapes, get the same price. *)
Theorem expected_price_order_free (o : Option) (vs ws : list (list R)) :
  Permutation (concat vs) (concat ws) ->
  calc_expected_price (map (map Fin) vs) o =
    calc_expected_price (map (map Fin) ws) o.
Proof.
  intro Hperm. rewrite !expected_price_fin_any.
  rewrite (Rsum_permutation _ _ (Permutation_map (payoff o) Hperm)).
  now rewrite (Permutation_length Hperm).
Qed.

Lemma expected_price_order_free_witness :
  let o := mkOption 100 1 100 (5 / 100) (2 / 10) "call" in
  calc_expected_price (map (map Fin) [[90; 120]; [80; 130]]) o =
    calc_expected_price (map (map Fin) [[120; 90; 80; 130]]) o.
Proof.
  intro o.
  apply (expected_price_order_free o [[90; 120]; [80; 130]]
           [[120; 90; 80; 130]]).
  cbn [concat app]. apply perm_swap.
Defined.

(** ** simulate, then calc_expected_price *)



(** ** calc_expected_price: the strike *)

Lemma Rsum_map_le (f h : R -> R) (l : list R) :
  (forall v : R, f v <= h v) -> Rsum (map f l) <= Rsum (map h l).
Proof.
  intro Hle. induction l as [| v l IH]; cbn [map Rsum fold_right]; [lra |].
  fold (Rsum (map f l)) (Rsum (map h l)). pose proof (Hle v). lra.
Qed.

Lemma mean_map_le (f h : R -> R) (l : list R) :
  l <> [] -> (forall v : R, f v <= h v) ->
  mean (map f l) <= mean (map h l).
Proof.
  intros Hne Hle. unfold mean. rewrite !length_map.
  apply Rmult_le_compat_r; [| now apply Rsum_map_le].
  apply Rlt_le, Rinv_0_lt_compat.
  pose proof (pos_INR (length l)).
  pose proof (INR_length_nonzero l Hne). lra.
Qed.

(** X15.  On the same non-empty array of finite values, and with the same
    kind, r and T, raising the strike never raises the price of a call and
    never lowers the price of any other kind. *)
Theorem expected_price_monotone_in_strike (o o' : Option)
    (vs : list (list R)) :
  putOrcall o = putOrcall o' -> r o = r o' -> T o = T o' ->
  K o <= K o' -> concat vs <> [] ->
  exists p p' : R,
    calc_expected_price (map (map Fin) vs) o = Ok (Fin p)
    /\ calc_expected_price (map (map Fin) vs) o' = Ok (Fin p')
    /\ (putOrcall o = "call"%string -> p' <= p)
    /\ (putOrcall o <> "call"%string -> p <= p').
Proof.
  intros Hkind Hr HT HK Hne. do 2 eexists.
  split; [now apply expected_price_fin |].
  split; [now apply expected_price_fin |].
  rewrite <- Hr, <- HT.
  pose proof (exp_pos (- (r o * T o))) as Hexp.
  split; intro Hc; apply Rmult_le_compat_r; try lra;
    apply mean_map_le; try assumption;
    intro v; unfold payoff; rewrite <- Hkind.
  - rewrite Hc. cbn [String.eqb Ascii.eqb Bool.eqb].
    apply Rle_max_compat_r. lra.
  - destruct (String.eqb_spec (putOrcall o) "call") as [Heq | _];
      [contradiction |].
    apply Rle_max_compat_r. lra.
Qed.

Lemma expected_price_monotone_in_strike_witness :
  let o := mkOption 100 1 100 (5 / 100) (2 / 10) "call" in
  let o' := mkOption 110 1 100 (5 / 100) (2 / 10) "call" in
  exists p p' : R,
    calc_expected_price (map (map Fin) [[90; 120]; [80; 130]]) o
    = Ok (Fin p)
    /\ calc_expected_price (map (map Fin) [[90; 120]; [80; 130]]) o'
       = Ok (Fin p')
    /\ p' <= p.
Proof.
  intros o o'.
  destruct (expected_price_monotone_in_strike o o' [[90; 120]; [80; 130]])
    as [p [p' [Hp [Hp' [Hcall _]]]]];
    try reflexivity; [cbn [o o' K]; lra | discriminate |].
  exists p, p'. repeat split; [exact Hp | exact Hp' | now apply Hcall].
Defined.
